(** * ghw, package [option]: environment defaults and the merge of options

    A shallow embedding of [pkg/option/option.go].

    - The process environment read by [os.LookupEnv] is a finite map from
      variable names to values, passed explicitly to every function that
      reads it.
    - A Go pointer [*T] is an [option T]: [None] is the nil pointer and
      [Some v] a pointer to a cell holding [v].  No function of the package
      writes through a pointer it was given, so cells need no identity.
    - Dereferencing a nil pointer panics; a function that can do so returns
      a [result]. *)

From stdpp Require Import base option list strings gmap fin_maps.

Open Scope string_scope.
Open Scope list_scope.

(** ** The runtime: environment lookup and panics *)

Module os.

(** [os.LookupEnv(key)] returns the value and whether the variable is
    present; when it is absent the value is the empty string. *)
Definition LookupEnv (environ : gmap string string) (key : string)
  : string * bool :=
  match environ !! key with
  | Some val => (val, true)
  | None => ("", false)
  end.

End os.

Inductive panic : Type :=
  | NilPointerDereference.

Inductive result (A : Type) : Type :=
  | Returns (a : A)
  | Panics (p : panic).

Arguments Returns {A} a.
Arguments Panics {A} p.

(** ** Constants *)

Definition defaultChroot : string := "/".
Definition envKeyChroot : string := "GHW_CHROOT".
Definition envKeySnapshotPath : string := "GHW_SNAPSHOT_PATH".
Definition envKeySnapshotRoot : string := "GHW_SNAPSHOT_ROOT".
Definition envKeySnapshotExclusive : string := "GHW_SNAPSHOT_EXCLUSIVE".
Definition envKeySnapshotPreserve : string := "GHW_SNAPSHOT_PRESERVE".

(** ** Environment-or-default lookups *)

Definition EnvOrDefaultChroot (environ : gmap string string) : string :=
  let '(val, exists_) := os.LookupEnv environ envKeyChroot in
  if exists_ then val else defaultChroot.

Definition EnvOrDefaultSnapshotPath (environ : gmap string string) : string :=
  let '(val, exists_) := os.LookupEnv environ envKeySnapshotPath in
  if exists_ then val else "".

Definition EnvOrDefaultSnapshotRoot (environ : gmap string string) : string :=
  let '(val, exists_) := os.LookupEnv environ envKeySnapshotRoot in
  if exists_ then val else "".

Definition EnvOrDefaultSnapshotExclusive (environ : gmap string string) : bool :=
  let '(_, exists_) := os.LookupEnv environ envKeySnapshotExclusive in
  if exists_ then true else false.

Definition EnvOrDefaultSnapshotPreserve (environ : gmap string string) : bool :=
  let '(_, exists_) := os.LookupEnv environ envKeySnapshotPreserve in
  if exists_ then true else false.

(** ** The option structures *)

Record SnapshotOptions : Type := {
  Path : string;
  Root : option string;
  Exclusive : bool;
}.

Record Option : Type := {
  Chroot : option string;
  Snapshot : option SnapshotOptions;
}.

(** [&Option{Chroot: &dir}]: the field left out is nil. *)
Definition WithChroot (dir : string) : option Option :=
  Some {| Chroot := Some dir; Snapshot := None |}.

(** [&Option{Snapshot: &opts}]. *)
Definition WithSnapshot (opts : SnapshotOptions) : option Option :=
  Some {| Chroot := None; Snapshot := Some opts |}.

(** ** Merge *)

(** [&Option{}], the value [merged] starts from. *)
Definition zero_Option : Option := {| Chroot := None; Snapshot := None |}.

(** One iteration of the loop body on a non-nil [opt]: the two [if]s, in
    order, each overwriting one field of [merged]. *)
Definition merge_body (merged opt : Option) : Option :=
  let merged :=
    match Chroot opt with
    | Some _ => {| Chroot := Chroot opt; Snapshot := Snapshot merged |}
    | None => merged
    end in
  let merged :=
    match Snapshot opt with
    | Some _ => {| Chroot := Chroot merged; Snapshot := Snapshot opt |}
    | None => merged
    end in
  merged.

(** [for _, opt := range opts { ... }]: [opt.Chroot] on a nil [opt] panics. *)
Fixpoint merge_range (merged : Option) (opts : list (option Option))
  : result Option :=
  match opts with
  | [] => Returns merged
  | None :: _ => Panics NilPointerDereference
  | Some opt :: opts => merge_range (merge_body merged opt) opts
  end.

(** The part after the loop: a field still nil is set from the environment. *)
Definition merge_defaults (environ : gmap string string) (merged : Option)
  : Option :=
  let merged :=
    match Chroot merged with
    | None =>
        let chroot := EnvOrDefaultChroot environ in
        {| Chroot := Some chroot; Snapshot := Snapshot merged |}
    | Some _ => merged
    end in
  let merged :=
    match Snapshot merged with
    | None =>
        let snapRoot := EnvOrDefaultSnapshotRoot environ in
        {| Chroot := Chroot merged;
           Snapshot := Some {| Path := EnvOrDefaultSnapshotPath environ;
                               Root := Some snapRoot;
                               Exclusive := EnvOrDefaultSnapshotExclusive environ |} |}
    | Some _ => merged
    end in
  merged.

Definition Merge (environ : gmap string string) (opts : list (option Option))
  : result (option Option) :=
  match merge_range zero_Option opts with
  | Returns merged => Returns (Some (merge_defaults environ merged))
  | Panics p => Panics p
  end.

(** ** Vocabulary of the specification *)

(** The value of field [f] in the last element of [args] that has it. *)
Definition last_present {A : Type} (f : Option → option A) (args : list Option)
  : option A :=
  last (omap f args).

(** Addresses of a sequence of [Option] values: the argument lists without
    a nil pointer. *)
Definition pointers_to (args : list Option) : list (option Option) :=
  Some <$> args.

(** Two environments that agree on every variable not in [keys]. *)
Definition differ_only_in (keys : list string) (e1 e2 : gmap string string)
  : Prop :=
  ∀ k : string, k ∉ keys → e1 !! k = e2 !! k.

(** Some argument of the list is non-nil and has field [f]. *)
Definition some_arg_has {A : Type} (f : Option → option A)
    (opts : list (option Option)) : Prop :=
  ∃ opt : Option, Some opt ∈ opts ∧ is_Some (f opt).

(** No field of the result is nil, at any depth. *)
Definition fully_resolved (o : Option) : Prop :=
  is_Some (Chroot o) ∧ ∃ s, Snapshot o = Some s ∧ is_Some (Root s).

(** ** The lookups in terms of the environment map *)

Section lookups.
Context (environ : gmap string string).

Lemma LookupEnv_present key val :
  environ !! key = Some val → os.LookupEnv environ key = (val, true).
Proof. unfold os.LookupEnv. by intros ->. Qed.

Lemma LookupEnv_absent key :
  environ !! key = None → os.LookupEnv environ key = ("", false).
Proof. unfold os.LookupEnv. by intros ->. Qed.

Lemma LookupEnv_exists key :
  (os.LookupEnv environ key).2 = true ↔ is_Some (environ !! key).
Proof.
  unfold os.LookupEnv. destruct (environ !! key) as [val|]; simpl.
  - split; [eauto | done].
  - split; [done | by intros [? ?]].
Qed.

Lemma EnvOrDefaultChroot_eq :
  EnvOrDefaultChroot environ = default defaultChroot (environ !! envKeyChroot).
Proof.
  unfold EnvOrDefaultChroot, os.LookupEnv.
  by destruct (environ !! envKeyChroot).
Qed.

Lemma EnvOrDefaultSnapshotPath_eq :
  EnvOrDefaultSnapshotPath environ = default "" (environ !! envKeySnapshotPath).
Proof.
  unfold EnvOrDefaultSnapshotPath, os.LookupEnv.
  by destruct (environ !! envKeySnapshotPath).
Qed.

Lemma EnvOrDefaultSnapshotRoot_eq :
  EnvOrDefaultSnapshotRoot environ = default "" (environ !! envKeySnapshotRoot).
Proof.
  unfold EnvOrDefaultSnapshotRoot, os.LookupEnv.
  by destruct (environ !! envKeySnapshotRoot).
Qed.

Lemma EnvOrDefaultSnapshotExclusive_eq :
  EnvOrDefaultSnapshotExclusive environ
  = bool_decide (is_Some (environ !! envKeySnapshotExclusive)).
Proof.
  unfold EnvOrDefaultSnapshotExclusive, os.LookupEnv.
  destruct (environ !! envKeySnapshotExclusive) as [val|].
  - symmetry. apply bool_decide_eq_true. eauto.
  - symmetry. apply bool_decide_eq_false. by intros [? ?].
Qed.

Lemma EnvOrDefaultSnapshotPreserve_eq :
  EnvOrDefaultSnapshotPreserve environ
  = bool_decide (is_Some (environ !! envKeySnapshotPreserve)).
Proof.
  unfold EnvOrDefaultSnapshotPreserve, os.LookupEnv.
  destruct (environ !! envKeySnapshotPreserve) as [val|].
  - symmetry. apply bool_decide_eq_true. eauto.
  - symmetry. apply bool_decide_eq_false. by intros [? ?].
Qed.

End lookups.

(** ** The loop of [Merge] *)

(** Without a nil argument the loop is a left fold of its body. *)
Lemma merge_range_pointers_to merged args :
  merge_range merged (pointers_to args) = Returns (foldl merge_body merged args).
Proof.
  revert merged. induction args as [|opt args IH]; intros merged; simpl; [done|].
  apply IH.
Qed.

Lemma merge_range_nil_argument merged before after :
  merge_range merged (pointers_to before ++ None :: after)
  = Panics NilPointerDereference.
Proof.
  revert merged. induction before as [|opt before IH]; intros merged; simpl; [done|].
  apply IH.
Qed.

Lemma pointers_to_Forall (opts : list (option Option)) :
  Forall is_Some opts ↔ ∃ args, opts = pointers_to args.
Proof.
  split.
  - induction 1 as [|p opts [opt ->] _ [args ->]].
    + by exists [].
    + by exists (opt :: args).
  - intros [args ->]. unfold pointers_to. apply Forall_fmap, Forall_true.
    intros opt; simpl; eauto.
Qed.

Lemma merge_body_Chroot merged opt :
  Chroot (merge_body merged opt)
  = match Chroot opt with Some dir => Some dir | None => Chroot merged end.
Proof. by destruct opt as [[dir|] [s|]]. Qed.

Lemma merge_body_Snapshot merged opt :
  Snapshot (merge_body merged opt)
  = match Snapshot opt with Some s => Some s | None => Snapshot merged end.
Proof. by destruct opt as [[dir|] [s|]]. Qed.

Lemma foldl_snoc {A B : Type} (f : A → B → A) (a : A) (l : list B) (b : B) :
  foldl f a (l ++ [b]) = f (foldl f a l) b.
Proof. by rewrite foldl_app. Qed.

Lemma last_present_app {A : Type} (f : Option → option A) args1 args2 :
  last_present f (args1 ++ args2)
  = match last_present f args2 with
    | Some x => Some x
    | None => last_present f args1
    end.
Proof. unfold last_present. by rewrite omap_app, last_app. Qed.

Lemma last_present_cons {A : Type} (f : Option → option A) opt args :
  last_present f (opt :: args)
  = match last_present f args with Some x => Some x | None => f opt end.
Proof.
  change (opt :: args) with ([opt] ++ args). rewrite last_present_app.
  destruct (last_present f args); [done|].
  unfold last_present. simpl. by destruct (f opt).
Qed.

Lemma last_present_snoc {A : Type} (f : Option → option A) args opt :
  last_present f (args ++ [opt])
  = match f opt with Some x => Some x | None => last_present f args end.
Proof.
  rewrite last_present_app, last_present_cons. simpl.
  by destruct (f opt).
Qed.

(** What the loop does to one field, for any field that the body updates
    on its own: [Chroot] and [Snapshot] are the two instances. *)
Section field.
Context {A : Type} (f : Option → option A).
Hypothesis body_field : ∀ merged opt,
  f (merge_body merged opt)
  = match f opt with Some x => Some x | None => f merged end.

Lemma foldl_merge_body_field merged args :
  f (foldl merge_body merged args)
  = match last_present f args with Some x => Some x | None => f merged end.
Proof.
  induction args as [|opt args IH] using rev_ind; [done|].
  rewrite foldl_snoc, body_field, last_present_snoc.
  by destruct (f opt).
Qed.

Lemma merge_range_field_present merged opts merged' :
  merge_range merged opts = Returns merged' →
  is_Some (f merged) ∨ some_arg_has f opts →
  is_Some (f merged').
Proof.
  revert merged. induction opts as [|[opt|] opts IH]; intros merged; simpl.
  - intros [= <-] [Hm|(opt & Hin & _)]; [done|].
    by apply elem_of_nil in Hin.
  - intros Hrun Hsome. apply (IH _ Hrun).
    rewrite body_field.
    destruct Hsome as [Hm|(opt' & Hin & Hopt')].
    + left. by destruct (f opt).
    + apply elem_of_cons in Hin as [[= ->]|Hin].
      * left. destruct Hopt' as [x ->]. eauto.
      * right. by exists opt'.
  - done.
Qed.

End field.

Lemma foldl_merge_body_Chroot args :
  Chroot (foldl merge_body zero_Option args) = last_present Chroot args.
Proof.
  rewrite (foldl_merge_body_field Chroot merge_body_Chroot).
  by destruct (last_present Chroot args).
Qed.

Lemma foldl_merge_body_Snapshot args :
  Snapshot (foldl merge_body zero_Option args) = last_present Snapshot args.
Proof.
  rewrite (foldl_merge_body_field Snapshot merge_body_Snapshot).
  by destruct (last_present Snapshot args).
Qed.

Lemma Option_eta (o : Option) : o = {| Chroot := Chroot o; Snapshot := Snapshot o |}.
Proof. by destruct o. Qed.

Lemma SnapshotOptions_eta (s : SnapshotOptions) :
  s = {| Path := Path s; Root := Root s; Exclusive := Exclusive s |}.
Proof. by destruct s. Qed.

Lemma Option_ext (o1 o2 : Option) :
  Chroot o1 = Chroot o2 → Snapshot o1 = Snapshot o2 → o1 = o2.
Proof. destruct o1, o2; simpl; by intros -> ->. Qed.

(** [Merge] on an argument list without nil, in one equation. *)
Lemma Merge_pointers_to environ args :
  Merge environ (pointers_to args)
  = Returns (Some (merge_defaults environ (foldl merge_body zero_Option args))).
Proof. unfold Merge. by rewrite merge_range_pointers_to. Qed.

Lemma merge_defaults_Chroot environ merged :
  Chroot (merge_defaults environ merged)
  = Some (default (EnvOrDefaultChroot environ) (Chroot merged)).
Proof. by destruct merged as [[dir|] [s|]]. Qed.

Lemma merge_defaults_Snapshot environ merged :
  Snapshot (merge_defaults environ merged)
  = Some (default {| Path := EnvOrDefaultSnapshotPath environ;
                     Root := Some (EnvOrDefaultSnapshotRoot environ);
                     Exclusive := EnvOrDefaultSnapshotExclusive environ |}
                  (Snapshot merged)).
Proof. by destruct merged as [[dir|] [s|]]. Qed.

(** The merged value in closed form: each field is the last one supplied, or
    else the environment's. *)
Lemma Merge_pointers_to_fields environ args :
  Merge environ (pointers_to args)
  = Returns (Some
      {| Chroot := Some (default (EnvOrDefaultChroot environ)
                                 (last_present Chroot args));
         Snapshot := Some (default
                             {| Path := EnvOrDefaultSnapshotPath environ;
                                Root := Some (EnvOrDefaultSnapshotRoot environ);
                                Exclusive := EnvOrDefaultSnapshotExclusive environ |}
                             (last_present Snapshot args)) |}).
Proof.
  rewrite Merge_pointers_to. do 2 f_equal. apply Option_ext; simpl.
  - by rewrite merge_defaults_Chroot, foldl_merge_body_Chroot.
  - by rewrite merge_defaults_Snapshot, foldl_merge_body_Snapshot.
Qed.

Lemma Merge_nil_argument environ before after :
  Merge environ (pointers_to before ++ None :: after)
  = Panics NilPointerDereference.
Proof. unfold Merge. by rewrite merge_range_nil_argument. Qed.

(** [Merge] returns exactly on the argument lists without a nil pointer. *)
Lemma Merge_returns_iff environ opts :
  (∃ p, Merge environ opts = Returns p) ↔ Forall is_Some opts.
Proof.
  split.
  - intros [p Hp]. unfold Merge in Hp. revert Hp. generalize zero_Option.
    induction opts as [|[opt|] opts IH]; intros merged; simpl.
    + by constructor.
    + intros Hp. constructor; [eauto | by apply (IH (merge_body merged opt))].
    + done.
  - intros [args ->]%pointers_to_Forall. rewrite Merge_pointers_to. eauto.
Qed.

(** ** Environments that agree on the variables consulted *)

Ltac other_key :=
  apply (bool_decide_unpack _); vm_compute; exact I.

Lemma differ_only_in_insert keys k val (environ : gmap string string) :
  k ∈ keys → differ_only_in keys environ (<[k := val]> environ).
Proof.
  intros Hk k' Hk'. rewrite lookup_insert_ne; [done|].
  by intros ->.
Qed.

Lemma differ_only_in_delete keys k (environ : gmap string string) :
  k ∈ keys → differ_only_in keys environ (delete k environ).
Proof.
  intros Hk k' Hk'. rewrite lookup_delete_ne; [done|].
  by intros ->.
Qed.

Lemma merge_defaults_agree e1 e2 merged :
  (Chroot merged = None → EnvOrDefaultChroot e1 = EnvOrDefaultChroot e2) →
  (Snapshot merged = None →
     EnvOrDefaultSnapshotPath e1 = EnvOrDefaultSnapshotPath e2
     ∧ EnvOrDefaultSnapshotRoot e1 = EnvOrDefaultSnapshotRoot e2
     ∧ EnvOrDefaultSnapshotExclusive e1 = EnvOrDefaultSnapshotExclusive e2) →
  merge_defaults e1 merged = merge_defaults e2 merged.
Proof.
  destruct merged as [[dir|] [s|]]; unfold merge_defaults; simpl;
    intros Hc Hs; try done.
  - destruct (Hs eq_refl) as (-> & -> & ->). done.
  - by rewrite (Hc eq_refl).
  - destruct (Hs eq_refl) as (-> & -> & ->). by rewrite (Hc eq_refl).
Qed.

Lemma snapshot_lookups_agree keys e1 e2 :
  differ_only_in keys e1 e2 →
  envKeySnapshotPath ∉ keys → envKeySnapshotRoot ∉ keys →
  envKeySnapshotExclusive ∉ keys →
  EnvOrDefaultSnapshotPath e1 = EnvOrDefaultSnapshotPath e2
  ∧ EnvOrDefaultSnapshotRoot e1 = EnvOrDefaultSnapshotRoot e2
  ∧ EnvOrDefaultSnapshotExclusive e1 = EnvOrDefaultSnapshotExclusive e2.
Proof.
  intros Hagree Hp Hr Hx.
  rewrite !EnvOrDefaultSnapshotPath_eq, !EnvOrDefaultSnapshotRoot_eq,
    !EnvOrDefaultSnapshotExclusive_eq.
  by rewrite (Hagree _ Hp), (Hagree _ Hr), (Hagree _ Hx).
Qed.

Lemma chroot_lookup_agrees keys e1 e2 :
  differ_only_in keys e1 e2 → envKeyChroot ∉ keys →
  EnvOrDefaultChroot e1 = EnvOrDefaultChroot e2.
Proof.
  intros Hagree Hc. rewrite !EnvOrDefaultChroot_eq. by rewrite (Hagree _ Hc).
Qed.

(** [Merge] under two environments, given what the loop leaves nil. *)
Lemma Merge_agree e1 e2 opts :
  (∀ merged, merge_range zero_Option opts = Returns merged →
             merge_defaults e1 merged = merge_defaults e2 merged) →
  Merge e1 opts = Merge e2 opts.
Proof.
  unfold Merge. destruct (merge_range zero_Option opts) as [merged|p]; [|done].
  intros H. by rewrite (H merged eq_refl).
Qed.

(** * Properties of the resolver *)

(** ** Per-field last-wins *)

(** C1.  [Merge] folds its arguments from left to right and, for each field
    on its own, the last argument that has the field wins: before the
    defaults are applied the chroot is that of the last argument whose chroot
    is present and the snapshot that of the last argument whose snapshot is
    present (nil when there is none), and the returned value keeps them.  The
    two fields do not interact: an argument with only a chroot, put anywhere
    in the list, leaves the merged snapshot as it was, and an argument with
    only a snapshot leaves the merged chroot as it was.  The two examples of
    the specification hold in every environment. *)
Theorem Merge_last_wins_per_field (environ : gmap string string)
    (args : list Option) :
  merge_range zero_Option (pointers_to args)
  = Returns {| Chroot := last_present Chroot args;
               Snapshot := last_present Snapshot args |}
  ∧ (∃ merged : Option,
        Merge environ (pointers_to args) = Returns (Some merged)
        ∧ (∀ dir, last_present Chroot args = Some dir → Chroot merged = Some dir)
        ∧ (∀ s, last_present Snapshot args = Some s → Snapshot merged = Some s))
  ∧ (∀ before after dir, args = before ++ after →
        merge_range zero_Option
          (pointers_to before ++ WithChroot dir :: pointers_to after)
        = Returns {| Chroot := Some (default dir (last_present Chroot after));
                     Snapshot := last_present Snapshot args |})
  ∧ (∀ before after s, args = before ++ after →
        merge_range zero_Option
          (pointers_to before ++ WithSnapshot s :: pointers_to after)
        = Returns {| Chroot := last_present Chroot args;
                     Snapshot := Some (default s (last_present Snapshot after)) |})
  ∧ (∃ merged : Option,
        Merge environ [WithChroot "/a"; WithChroot "/b"] = Returns (Some merged)
        ∧ Chroot merged = Some "/b")
  ∧ (∃ merged : Option,
        Merge environ
          [WithChroot "/a";
           WithSnapshot {| Path := "/snap"; Root := None; Exclusive := false |}]
        = Returns (Some merged)
        ∧ Chroot merged = Some "/a"
        ∧ Path <$> Snapshot merged = Some "/snap").
Proof.
  assert (Hloop : ∀ l, merge_range zero_Option (pointers_to l)
            = Returns {| Chroot := last_present Chroot l;
                         Snapshot := last_present Snapshot l |}).
  { intros l. rewrite merge_range_pointers_to. f_equal.
    apply Option_ext; simpl;
      [apply foldl_merge_body_Chroot | apply foldl_merge_body_Snapshot]. }
  split_and!.
  - apply Hloop.
  - eexists. split; [apply Merge_pointers_to_fields|]. simpl.
    split; by intros ? ->.
  - intros before after dir ->.
    change (pointers_to before ++ WithChroot dir :: pointers_to after)
      with (pointers_to before
            ++ pointers_to ({| Chroot := Some dir; Snapshot := None |} :: after)).
    unfold pointers_to at 1 2. rewrite <- fmap_app. fold (pointers_to).
    rewrite Hloop, !last_present_app, !last_present_cons. simpl.
    by destruct (last_present Chroot after), (last_present Snapshot after).
  - intros before after s ->.
    change (pointers_to before ++ WithSnapshot s :: pointers_to after)
      with (pointers_to before
            ++ pointers_to ({| Chroot := None; Snapshot := Some s |} :: after)).
    unfold pointers_to at 1 2. rewrite <- fmap_app. fold (pointers_to).
    rewrite Hloop, !last_present_app, !last_present_cons. simpl.
    by destruct (last_present Chroot after), (last_present Snapshot after).
  - by eexists.
  - by eexists.
Qed.

(** ** What is resolved after the merge *)

(** C2, the claim as stated fails: [WithSnapshot] with a nil [Root] is
    taken as it is, so the value returned has a nil field left in it. *)
Lemma Merge_snapshot_root_left_nil :
  Merge ∅ [WithSnapshot {| Path := "/snap"; Root := None; Exclusive := false |}]
  = Returns (Some
      {| Chroot := Some "/";
         Snapshot := Some {| Path := "/snap"; Root := None; Exclusive := false |} |})
  ∧ ¬ fully_resolved
      {| Chroot := Some "/";
         Snapshot := Some {| Path := "/snap"; Root := None; Exclusive := false |} |}.
Proof.
  split; [by vm_compute|].
  intros (_ & s & [= <-] & Hroot). simpl in Hroot. by destruct Hroot.
Qed.

(** C2, amended.  For every environment and every argument list without a
    nil pointer, [Merge] returns an [Option] whose chroot and snapshot are
    both present.  The chroot is the last one supplied, else the value of
    GHW_CHROOT, else "/".  The snapshot is the last one supplied, unchanged;
    when no argument supplies one it is built from the environment: path
    from GHW_SNAPSHOT_PATH else "", root present and from GHW_SNAPSHOT_ROOT
    else "", exclusive true exactly when GHW_SNAPSHOT_EXCLUSIVE is set.  So
    the result is fully resolved when no argument supplies a snapshot, and
    otherwise exactly when the root of the supplied snapshot is present. *)
Theorem Merge_resolves_top_level_fields (environ : gmap string string)
    (args : list Option) :
  ∃ merged : Option,
    Merge environ (pointers_to args) = Returns (Some merged)
    ∧ Chroot merged
      = Some (default (default "/" (environ !! envKeyChroot))
                      (last_present Chroot args))
    ∧ Snapshot merged
      = Some (default
                {| Path := default "" (environ !! envKeySnapshotPath);
                   Root := Some (default "" (environ !! envKeySnapshotRoot));
                   Exclusive :=
                     bool_decide (is_Some (environ !! envKeySnapshotExclusive)) |}
                (last_present Snapshot args))
    ∧ (last_present Snapshot args = None → fully_resolved merged)
    ∧ (∀ s, last_present Snapshot args = Some s →
            (fully_resolved merged ↔ is_Some (Root s))).
Proof.
  eexists. split; [apply Merge_pointers_to_fields|]. simpl.
  rewrite EnvOrDefaultChroot_eq, EnvOrDefaultSnapshotPath_eq,
    EnvOrDefaultSnapshotRoot_eq, EnvOrDefaultSnapshotExclusive_eq.
  split_and!; [done | done | |].
  - intros ->. split; simpl; [eauto|]. eexists. split; [done|]. simpl. eauto.
  - intros s ->. unfold fully_resolved. simpl. split.
    + by intros (_ & s' & [= <-] & Hroot).
    + intros Hroot. split; [eauto|]. by exists s.
Qed.

(** ** No arguments *)

(** C3.  [Merge] with no argument returns the [Option] built from the
    lookup functions alone.  When GHW_CHROOT, GHW_SNAPSHOT_PATH,
    GHW_SNAPSHOT_ROOT and GHW_SNAPSHOT_EXCLUSIVE are all unset this is chroot
    "/", snapshot path "", snapshot root "" and exclusive false; when
    GHW_CHROOT is "/host" the chroot is "/host". *)
Theorem Merge_no_arguments (environ : gmap string string) :
  Merge environ []
  = Returns (Some
      {| Chroot := Some (EnvOrDefaultChroot environ);
         Snapshot := Some {| Path := EnvOrDefaultSnapshotPath environ;
                             Root := Some (EnvOrDefaultSnapshotRoot environ);
                             Exclusive := EnvOrDefaultSnapshotExclusive environ |} |})
  ∧ (environ !! envKeyChroot = None →
     environ !! envKeySnapshotPath = None →
     environ !! envKeySnapshotRoot = None →
     environ !! envKeySnapshotExclusive = None →
     Merge environ []
     = Returns (Some
         {| Chroot := Some "/";
            Snapshot := Some {| Path := ""; Root := Some "";
                                Exclusive := false |} |}))
  ∧ (environ !! envKeyChroot = Some "/host" →
     ∃ merged : Option,
       Merge environ [] = Returns (Some merged) ∧ Chroot merged = Some "/host").
Proof.
  assert (Hpt := Merge_pointers_to_fields environ []).
  change (pointers_to []) with (@nil (option Option)) in Hpt.
  unfold last_present in Hpt. simpl in Hpt.
  split_and!.
  - exact Hpt.
  - intros Hc Hp Hr Hx. rewrite Hpt.
    rewrite EnvOrDefaultChroot_eq, EnvOrDefaultSnapshotPath_eq,
      EnvOrDefaultSnapshotRoot_eq, EnvOrDefaultSnapshotExclusive_eq.
    by rewrite Hc, Hp, Hr, Hx.
  - intros Hc. eexists. split; [exact Hpt|]. simpl.
    by rewrite EnvOrDefaultChroot_eq, Hc.
Qed.

Lemma Merge_no_arguments_witness :
  Merge ∅ []
  = Returns (Some
      {| Chroot := Some "/";
         Snapshot := Some {| Path := ""; Root := Some ""; Exclusive := false |} |})
  ∧ ∃ merged : Option,
      Merge {[ envKeyChroot := "/host" ]} [] = Returns (Some merged)
      ∧ Chroot merged = Some "/host".
Proof.
  split.
  - apply (proj1 (proj2 (Merge_no_arguments ∅))); reflexivity.
  - apply (proj2 (proj2 (Merge_no_arguments {[ envKeyChroot := "/host" ]}))).
    reflexivity.
Defined.

(** ** The chroot lookup *)

(** C4, the claim as stated fails: "/" is also what the lookup returns when
    GHW_CHROOT is present with the value "/", so the result is "/" in an
    environment where the variable is not absent. *)
Lemma EnvOrDefaultChroot_slash_when_present :
  ¬ (EnvOrDefaultChroot {[ envKeyChroot := "/" ]} = "/"
     ↔ ({[ envKeyChroot := "/" ]} : gmap string string) !! envKeyChroot = None).
Proof.
  intros [Hto _].
  assert (Hret : EnvOrDefaultChroot {[ envKeyChroot := "/" ]} = "/")
    by (by vm_compute).
  specialize (Hto Hret). rewrite lookup_singleton_eq in Hto. discriminate Hto.
Qed.

(** C4, amended.  In every environment [EnvOrDefaultChroot] returns "/" when
    GHW_CHROOT is absent and the variable's exact value, the empty string
    included, when it is present; hence its result is "/" exactly when the
    variable is absent or present with the value "/".  It is a function of
    the environment with no failure case. *)
Theorem EnvOrDefaultChroot_spec (environ : gmap string string) :
  EnvOrDefaultChroot environ = default "/" (environ !! envKeyChroot)
  ∧ (environ !! envKeyChroot = None → EnvOrDefaultChroot environ = "/")
  ∧ (∀ val, environ !! envKeyChroot = Some val → EnvOrDefaultChroot environ = val)
  ∧ (∀ val, EnvOrDefaultChroot (<[envKeyChroot := val]> environ) = val)
  ∧ EnvOrDefaultChroot (<[envKeyChroot := ""]> environ) = ""
  ∧ EnvOrDefaultChroot (delete envKeyChroot environ) = "/"
  ∧ (EnvOrDefaultChroot environ = "/"
     ↔ environ !! envKeyChroot = None ∨ environ !! envKeyChroot = Some "/").
Proof.
  rewrite !EnvOrDefaultChroot_eq. split_and!.
  - done.
  - by intros ->.
  - by intros val ->.
  - intros val. by rewrite EnvOrDefaultChroot_eq, lookup_insert_eq.
  - by rewrite lookup_insert_eq.
  - by rewrite lookup_delete_eq.
  - destruct (environ !! envKeyChroot) as [val|]; simpl.
    + split; [intros ->; by right | by intros [|[= ->]]].
    + split; [by left | done].
Qed.

(** ** The exclusive flag *)

(** C5.  In every environment [EnvOrDefaultSnapshotExclusive] is true if and
    only if GHW_SNAPSHOT_EXCLUSIVE is present, whatever its value: setting
    the variable to any value, the empty string among them, gives true, and
    removing it gives false. *)
Theorem EnvOrDefaultSnapshotExclusive_iff_present
    (environ : gmap string string) :
  (EnvOrDefaultSnapshotExclusive environ = true
   ↔ is_Some (environ !! envKeySnapshotExclusive))
  ∧ (EnvOrDefaultSnapshotExclusive environ = false
     ↔ environ !! envKeySnapshotExclusive = None)
  ∧ (∀ val,
       EnvOrDefaultSnapshotExclusive (<[envKeySnapshotExclusive := val]> environ)
       = true)
  ∧ EnvOrDefaultSnapshotExclusive (<[envKeySnapshotExclusive := ""]> environ)
    = true
  ∧ EnvOrDefaultSnapshotExclusive (delete envKeySnapshotExclusive environ)
    = false.
Proof.
  split_and!.
  - rewrite EnvOrDefaultSnapshotExclusive_eq. apply bool_decide_eq_true.
  - rewrite EnvOrDefaultSnapshotExclusive_eq, bool_decide_eq_false.
    symmetry. apply eq_None_not_Some.
  - intros val. rewrite EnvOrDefaultSnapshotExclusive_eq, lookup_insert_eq.
    apply bool_decide_eq_true. eauto.
  - rewrite EnvOrDefaultSnapshotExclusive_eq, lookup_insert_eq.
    apply bool_decide_eq_true. eauto.
  - rewrite EnvOrDefaultSnapshotExclusive_eq, lookup_delete_eq.
    apply bool_decide_eq_false. by intros [? ?].
Qed.

(** ** Merging a merged value again *)

Lemma Merge_returns_top_level environ opts p :
  Merge environ opts = Returns p →
  ∃ merged, p = Some merged ∧ is_Some (Chroot merged) ∧ is_Some (Snapshot merged).
Proof.
  unfold Merge. destruct (merge_range zero_Option opts) as [folded|]; [|done].
  intros [= <-]. eexists. split; [done|].
  rewrite merge_defaults_Chroot, merge_defaults_Snapshot. eauto.
Qed.

Lemma Merge_of_merged environ merged :
  is_Some (Chroot merged) → is_Some (Snapshot merged) →
  Merge environ [Some merged] = Returns (Some merged)
  ∧ Merge environ [Some merged; Some merged] = Returns (Some merged).
Proof.
  destruct merged as [chroot snapshot]. simpl.
  by intros [dir ->] [s ->].
Qed.

(** C6.  In every environment and for every argument list without a nil
    pointer, [Merge] returns a value that [Merge] maps to itself, alone or
    repeated, in the same environment and in any other: both fields are
    present, so no default applies.  In particular
    [Merge(Merge(a, b)) = Merge(a, b)].  More generally whatever [Merge]
    returns, on any argument list, is such a fixed point. *)
Theorem Merge_idempotent (environ : gmap string string) (args : list Option) :
  (∃ p : option Option,
     Merge environ (pointers_to args) = Returns p
     ∧ Merge environ [p] = Returns p
     ∧ Merge environ [p; p] = Returns p
     ∧ ∀ environ', Merge environ' [p] = Returns p)
  ∧ (∀ a b : Option, ∃ p : option Option,
       Merge environ [Some a; Some b] = Returns p
       ∧ Merge environ [p] = Returns p)
  ∧ (∀ (opts : list (option Option)) (p : option Option),
       Merge environ opts = Returns p → Merge environ [p] = Returns p).
Proof.
  assert (Hfix : ∀ opts p, Merge environ opts = Returns p →
            ∀ environ', Merge environ' [p] = Returns p
                        ∧ Merge environ' [p; p] = Returns p).
  { intros opts p (merged & -> & Hc & Hs)%Merge_returns_top_level environ'.
    by apply Merge_of_merged. }
  split_and!.
  - eexists. split; [apply Merge_pointers_to|].
    pose proof (Hfix _ _ (Merge_pointers_to environ args)) as H.
    split_and!; [apply H | apply H | intros environ'; apply H].
  - intros a b. eexists. split; [apply (Merge_pointers_to environ [a; b])|].
    apply (Hfix _ _ (Merge_pointers_to environ [a; b])).
  - intros opts p Hp. by apply (Hfix opts).
Qed.

(** ** Totality *)

(** C7.  Every operation succeeds on well-formed input in every
    environment.  The lookups and the two constructors are functions with no
    failure case: the constructors return non-nil pointers, the string
    lookups return whatever value a variable holds and the two flags are true
    for every value.  [Merge] returns a non-nil [Option] on every argument
    list whose pointers are all non-nil. *)
Theorem resolver_total (environ : gmap string string)
    (opts : list (option Option)) (dir : string) (snap : SnapshotOptions) :
  Forall is_Some opts →
  (∃ merged : Option, Merge environ opts = Returns (Some merged))
  ∧ is_Some (WithChroot dir)
  ∧ is_Some (WithSnapshot snap)
  ∧ (∃ merged : Option,
       Merge environ (WithChroot dir :: WithSnapshot snap :: opts)
       = Returns (Some merged))
  ∧ (∀ val : string,
       EnvOrDefaultChroot (<[envKeyChroot := val]> environ) = val
       ∧ EnvOrDefaultSnapshotPath (<[envKeySnapshotPath := val]> environ) = val
       ∧ EnvOrDefaultSnapshotRoot (<[envKeySnapshotRoot := val]> environ) = val
       ∧ EnvOrDefaultSnapshotExclusive
           (<[envKeySnapshotExclusive := val]> environ) = true
       ∧ EnvOrDefaultSnapshotPreserve
           (<[envKeySnapshotPreserve := val]> environ) = true).
Proof.
  intros Hwf. split_and!.
  - destruct (proj2 (Merge_returns_iff environ opts) Hwf) as [p Hp].
    destruct (Merge_returns_top_level _ _ _ Hp) as (merged & -> & _). eauto.
  - unfold WithChroot. eauto.
  - unfold WithSnapshot. eauto.
  - assert (Hwf' : Forall is_Some (WithChroot dir :: WithSnapshot snap :: opts)).
    { repeat constructor; [unfold WithChroot | unfold WithSnapshot | ]; eauto. }
    destruct (proj2 (Merge_returns_iff environ _) Hwf') as [p Hp].
    destruct (Merge_returns_top_level _ _ _ Hp) as (merged & -> & _). eauto.
  - intros val.
    rewrite EnvOrDefaultChroot_eq, EnvOrDefaultSnapshotPath_eq,
      EnvOrDefaultSnapshotRoot_eq, EnvOrDefaultSnapshotExclusive_eq,
      EnvOrDefaultSnapshotPreserve_eq, !lookup_insert_eq. simpl.
    split_and!; try done; apply bool_decide_eq_true; eauto.
Qed.

Lemma resolver_total_witness :
  ∃ merged : Option,
    Merge {[ envKeyChroot := "" ]}
      [WithChroot "/a";
       WithSnapshot {| Path := "/snap"; Root := None; Exclusive := true |}]
    = Returns (Some merged).
Proof.
  refine (proj1 (resolver_total {[ envKeyChroot := "" ]}
    [WithChroot "/a";
     WithSnapshot {| Path := "/snap"; Root := None; Exclusive := true |}]
    "/" {| Path := ""; Root := None; Exclusive := false |} _)).
  repeat constructor; [unfold WithChroot | unfold WithSnapshot]; eauto.
Defined.

(** ** What [Merge] reads of the environment *)

Lemma Merge_ignores_chroot_variable e1 e2 opts :
  some_arg_has Chroot opts → differ_only_in [envKeyChroot] e1 e2 →
  Merge e1 opts = Merge e2 opts.
Proof.
  intros Harg Hagree. apply Merge_agree. intros merged Hrun.
  assert (Hc : is_Some (Chroot merged)).
  { apply (merge_range_field_present Chroot merge_body_Chroot _ _ _ Hrun). eauto. }
  apply merge_defaults_agree.
  - intros Hnone. rewrite Hnone in Hc. by destruct Hc.
  - intros _. apply (snapshot_lookups_agree _ _ _ Hagree); other_key.
Qed.

Lemma Merge_ignores_snapshot_variables e1 e2 opts :
  some_arg_has Snapshot opts →
  differ_only_in
    [envKeySnapshotPath; envKeySnapshotRoot; envKeySnapshotExclusive] e1 e2 →
  Merge e1 opts = Merge e2 opts.
Proof.
  intros Harg Hagree. apply Merge_agree. intros merged Hrun.
  assert (Hs : is_Some (Snapshot merged)).
  { apply (merge_range_field_present Snapshot merge_body_Snapshot _ _ _ Hrun).
    eauto. }
  apply merge_defaults_agree.
  - intros _. apply (chroot_lookup_agrees _ _ _ Hagree); other_key.
  - intros Hnone. rewrite Hnone in Hs. by destruct Hs.
Qed.

Lemma Merge_ignores_preserve_variable e1 e2 opts :
  differ_only_in [envKeySnapshotPreserve] e1 e2 →
  Merge e1 opts = Merge e2 opts.
Proof.
  intros Hagree. apply Merge_agree. intros merged _.
  apply merge_defaults_agree; intros _.
  - apply (chroot_lookup_agrees _ _ _ Hagree); other_key.
  - apply (snapshot_lookups_agree _ _ _ Hagree); other_key.
Qed.

(** C10.  Take two environments and any argument list, nil pointers
    allowed.  If the environments differ only in GHW_CHROOT and some
    argument has its chroot present, [Merge] gives the same outcome in both.
    If they differ only in GHW_SNAPSHOT_PATH, GHW_SNAPSHOT_ROOT and
    GHW_SNAPSHOT_EXCLUSIVE and some argument has its snapshot present,
    [Merge] gives the same outcome in both.  If they differ only in
    GHW_SNAPSHOT_PRESERVE, [Merge] gives the same outcome in both, whatever
    the arguments. *)
Theorem Merge_noninterference (e1 e2 : gmap string string)
    (opts : list (option Option)) :
  (some_arg_has Chroot opts → differ_only_in [envKeyChroot] e1 e2 →
   Merge e1 opts = Merge e2 opts)
  ∧ (some_arg_has Snapshot opts →
     differ_only_in
       [envKeySnapshotPath; envKeySnapshotRoot; envKeySnapshotExclusive] e1 e2 →
     Merge e1 opts = Merge e2 opts)
  ∧ (some_arg_has Snapshot opts →
     (differ_only_in [envKeySnapshotPath] e1 e2
      ∨ differ_only_in [envKeySnapshotRoot] e1 e2
      ∨ differ_only_in [envKeySnapshotExclusive] e1 e2) →
     Merge e1 opts = Merge e2 opts)
  ∧ (differ_only_in [envKeySnapshotPreserve] e1 e2 →
     Merge e1 opts = Merge e2 opts).
Proof.
  split_and!.
  - apply Merge_ignores_chroot_variable.
  - apply Merge_ignores_snapshot_variables.
  - intros Harg Hone. apply Merge_ignores_snapshot_variables; [done|].
    intros k Hk.
    destruct Hone as [H|[H|H]]; apply H; intros ->%list_elem_of_singleton;
      apply Hk; repeat constructor.
  - apply Merge_ignores_preserve_variable.
Qed.

Lemma Merge_noninterference_witness :
  Merge ∅ [WithChroot "/a"]
  = Merge {[ envKeyChroot := "/host" ]} [WithChroot "/a"]
  ∧ Merge ∅ [WithSnapshot {| Path := "/snap"; Root := None; Exclusive := false |}]
    = Merge {[ envKeySnapshotRoot := "/unpack" ]}
        [WithSnapshot {| Path := "/snap"; Root := None; Exclusive := false |}]
  ∧ Merge ∅ [] = Merge {[ envKeySnapshotPreserve := "1" ]} [].
Proof.
  split_and!.
  - apply (proj1 (Merge_noninterference ∅ {[ envKeyChroot := "/host" ]} _)).
    + eexists. split; [apply list_elem_of_here | simpl; eauto].
    + apply (differ_only_in_insert _ _ _ ∅). apply list_elem_of_here.
  - apply (proj1 (proj2
      (Merge_noninterference ∅ {[ envKeySnapshotRoot := "/unpack" ]} _))).
    + eexists. split; [apply list_elem_of_here | simpl; eauto].
    + apply (differ_only_in_insert _ _ _ ∅).
      apply list_elem_of_further, list_elem_of_here.
  - apply (proj2 (proj2 (proj2
      (Merge_noninterference ∅ {[ envKeySnapshotPreserve := "1" ]} [])))).
    apply (differ_only_in_insert _ _ _ ∅). apply list_elem_of_here.
Defined.

(** ** The preserve flag *)

(** C8.  [EnvOrDefaultSnapshotPreserve] is true if and only if
    GHW_SNAPSHOT_PRESERVE is present, whatever its value.  Nothing a caller
    passes reaches it: it is a function of that one variable, an [Option] is
    made of a chroot and a snapshot and a [SnapshotOptions] of a path, a root
    and an exclusive flag, with no field for it, and [Merge] neither reads
    the variable nor carries the flag in what it returns. *)
Theorem EnvOrDefaultSnapshotPreserve_environment_only
    (environ : gmap string string) :
  (EnvOrDefaultSnapshotPreserve environ = true
   ↔ is_Some (environ !! envKeySnapshotPreserve))
  ∧ (∀ val,
       EnvOrDefaultSnapshotPreserve (<[envKeySnapshotPreserve := val]> environ)
       = true)
  ∧ EnvOrDefaultSnapshotPreserve (delete envKeySnapshotPreserve environ) = false
  ∧ (∀ environ' : gmap string string,
       environ' !! envKeySnapshotPreserve = environ !! envKeySnapshotPreserve →
       EnvOrDefaultSnapshotPreserve environ' = EnvOrDefaultSnapshotPreserve environ)
  ∧ (∀ o : Option, o = {| Chroot := Chroot o; Snapshot := Snapshot o |})
  ∧ (∀ s : SnapshotOptions,
       s = {| Path := Path s; Root := Root s; Exclusive := Exclusive s |})
  ∧ (∀ (opts : list (option Option)) (val : string),
       Merge (<[envKeySnapshotPreserve := val]> environ) opts = Merge environ opts
       ∧ Merge (delete envKeySnapshotPreserve environ) opts = Merge environ opts).
Proof.
  split_and!.
  - rewrite EnvOrDefaultSnapshotPreserve_eq. apply bool_decide_eq_true.
  - intros val. rewrite EnvOrDefaultSnapshotPreserve_eq, lookup_insert_eq.
    apply bool_decide_eq_true. eauto.
  - rewrite EnvOrDefaultSnapshotPreserve_eq, lookup_delete_eq.
    apply bool_decide_eq_false. by intros [? ?].
  - intros environ' Hsame. by rewrite !EnvOrDefaultSnapshotPreserve_eq, Hsame.
  - apply Option_eta.
  - apply SnapshotOptions_eta.
  - intros opts val. split; symmetry; apply Merge_ignores_preserve_variable.
    + apply differ_only_in_insert. repeat constructor.
    + apply differ_only_in_delete. repeat constructor.
Qed.

(** ** A supplied snapshot is taken whole *)

(** C9.  When some argument has its snapshot present, the snapshot of the
    result is the [SnapshotOptions] of the last such argument, as it is: if
    its root is nil the root of the result is nil, and the result is the same
    in every environment that differs only in GHW_SNAPSHOT_PATH,
    GHW_SNAPSHOT_ROOT and GHW_SNAPSHOT_EXCLUSIVE, so none of them is
    consulted. *)
Theorem Merge_snapshot_taken_whole (environ : gmap string string)
    (args : list Option) (s : SnapshotOptions) :
  last_present Snapshot args = Some s →
  ∃ merged : Option,
    Merge environ (pointers_to args) = Returns (Some merged)
    ∧ Snapshot merged = Some s
    ∧ (Root s = None → Snapshot merged ≫= Root = None)
    ∧ (∀ environ' : gmap string string,
         differ_only_in
           [envKeySnapshotPath; envKeySnapshotRoot; envKeySnapshotExclusive]
           environ environ' →
         Merge environ' (pointers_to args) = Returns (Some merged))
    ∧ (∀ val : string,
         Merge (<[envKeySnapshotRoot := val]> environ) (pointers_to args)
         = Returns (Some merged)).
Proof.
  intros Hlast.
  assert (Harg : some_arg_has Snapshot (pointers_to args)).
  { unfold last_present in Hlast. apply last_Some_elem_of in Hlast.
    apply list_elem_of_omap in Hlast as (opt & Hin & Hopt).
    exists opt. split; [|eauto].
    unfold pointers_to. by apply list_elem_of_fmap_2. }
  eexists. split; [apply Merge_pointers_to_fields|]. simpl.
  rewrite Hlast. simpl. split_and!.
  - done.
  - by intros ->.
  - intros environ' Hagree.
    rewrite <- (Merge_ignores_snapshot_variables _ _ _ Harg Hagree).
    by rewrite Merge_pointers_to_fields, Hlast.
  - intros val.
    rewrite <- (Merge_ignores_snapshot_variables environ _ _ Harg).
    + by rewrite Merge_pointers_to_fields, Hlast.
    + apply differ_only_in_insert. repeat constructor.
Qed.

Lemma Merge_snapshot_taken_whole_witness :
  ∃ merged : Option,
    Merge {[ envKeySnapshotRoot := "/unpack" ]}
      (pointers_to
         [ {| Chroot := None;
              Snapshot := Some {| Path := "/snap"; Root := None;
                                  Exclusive := false |} |};
           {| Chroot := Some "/a"; Snapshot := None |} ])
    = Returns (Some merged)
    ∧ Snapshot merged
      = Some {| Path := "/snap"; Root := None; Exclusive := false |}
    ∧ Snapshot merged ≫= Root = None.
Proof.
  destruct (Merge_snapshot_taken_whole {[ envKeySnapshotRoot := "/unpack" ]}
    [ {| Chroot := None;
         Snapshot := Some {| Path := "/snap"; Root := None;
                             Exclusive := false |} |};
      {| Chroot := Some "/a"; Snapshot := None |} ]
    {| Path := "/snap"; Root := None; Exclusive := false |} eq_refl)
    as (merged & Hret & Hsnap & Hroot & _).
  exists merged. split_and!; [exact Hret | exact Hsnap | exact (Hroot eq_refl)].
Defined.

(** * Further properties of the package *)

(** ** The loop on a list with or without a nil pointer *)

Lemma merge_range_app merged opts1 opts2 :
  merge_range merged (opts1 ++ opts2)
  = match merge_range merged opts1 with
    | Returns merged' => merge_range merged' opts2
    | Panics p => Panics p
    end.
Proof.
  revert merged. induction opts1 as [|[opt|] opts1 IH]; intros merged; simpl.
  - done.
  - apply IH.
  - done.
Qed.

Lemma pointers_to_no_nil args : None ∉ pointers_to args.
Proof.
  unfold pointers_to. by intros (opt & [=] & _)%list_elem_of_fmap.
Qed.

(** An argument list either has a first nil pointer or has none. *)
Lemma nil_argument_cases (opts : list (option Option)) :
  (∃ before after, opts = pointers_to before ++ None :: after)
  ∨ (∃ args, opts = pointers_to args).
Proof.
  induction opts as [|[opt|] opts IH].
  - right. by exists [].
  - destruct IH as [(before & after & ->)|(args & ->)].
    + left. by exists (opt :: before), after.
    + right. by exists (opt :: args).
  - left. by exists [], opts.
Qed.

(** X1.  [Merge] panics with a nil dereference exactly when one of its
    arguments is a nil pointer, wherever it stands in the list and whatever
    the environment; on every other list it returns, and what it returns is
    never a nil pointer. *)
Theorem Merge_panics_exactly_on_nil (environ : gmap string string)
    (opts : list (option Option)) :
  (Merge environ opts = Panics NilPointerDereference ↔ None ∈ opts)
  ∧ ((∃ merged : Option, Merge environ opts = Returns (Some merged))
     ↔ None ∉ opts)
  ∧ Merge environ opts ≠ Returns None.
Proof.
  destruct (nil_argument_cases opts) as [(before & after & ->)|(args & ->)].
  - assert (Hin : None ∈ pointers_to before ++ None :: after).
    { apply elem_of_app. right. apply list_elem_of_here. }
    rewrite Merge_nil_argument. split_and!.
    + done.
    + split; [by intros [? ?] | done].
    + done.
  - pose proof (pointers_to_no_nil args) as Hnot.
    rewrite Merge_pointers_to. split_and!.
    + split; [done | by intros ?].
    + split; [done | eauto].
    + done.
Qed.

(** ** The two snapshot string lookups *)

(** X2.  [EnvOrDefaultSnapshotPath] and [EnvOrDefaultSnapshotRoot] return
    the value of GHW_SNAPSHOT_PATH and GHW_SNAPSHOT_ROOT when the variable is
    present and the empty string when it is absent.  Their default being the
    empty string, a variable set to the empty string and an unset variable
    give the same result, and each function reads its own variable only. *)
Theorem EnvOrDefaultSnapshot_strings (environ : gmap string string) :
  (∀ val, EnvOrDefaultSnapshotPath (<[envKeySnapshotPath := val]> environ) = val)
  ∧ EnvOrDefaultSnapshotPath (delete envKeySnapshotPath environ) = ""
  ∧ (EnvOrDefaultSnapshotPath environ = ""
     ↔ environ !! envKeySnapshotPath = None
       ∨ environ !! envKeySnapshotPath = Some "")
  ∧ (∀ key val, key ≠ envKeySnapshotPath →
       EnvOrDefaultSnapshotPath (<[key := val]> environ)
       = EnvOrDefaultSnapshotPath environ)
  ∧ (∀ val, EnvOrDefaultSnapshotRoot (<[envKeySnapshotRoot := val]> environ) = val)
  ∧ EnvOrDefaultSnapshotRoot (delete envKeySnapshotRoot environ) = ""
  ∧ (EnvOrDefaultSnapshotRoot environ = ""
     ↔ environ !! envKeySnapshotRoot = None
       ∨ environ !! envKeySnapshotRoot = Some "")
  ∧ (∀ key val, key ≠ envKeySnapshotRoot →
       EnvOrDefaultSnapshotRoot (<[key := val]> environ)
       = EnvOrDefaultSnapshotRoot environ).
Proof.
  split_and!.
  - intros val. by rewrite EnvOrDefaultSnapshotPath_eq, lookup_insert_eq.
  - by rewrite EnvOrDefaultSnapshotPath_eq, lookup_delete_eq.
  - rewrite EnvOrDefaultSnapshotPath_eq.
    destruct (environ !! envKeySnapshotPath) as [val|]; simpl.
    + split; [intros ->; by right | by intros [|[= ->]]].
    + split; [by left | done].
  - intros key val Hne.
    by rewrite !EnvOrDefaultSnapshotPath_eq, lookup_insert_ne.
  - intros val. by rewrite EnvOrDefaultSnapshotRoot_eq, lookup_insert_eq.
  - by rewrite EnvOrDefaultSnapshotRoot_eq, lookup_delete_eq.
  - rewrite EnvOrDefaultSnapshotRoot_eq.
    destruct (environ !! envKeySnapshotRoot) as [val|]; simpl.
    + split; [intros ->; by right | by intros [|[= ->]]].
    + split; [by left | done].
  - intros key val Hne.
    by rewrite !EnvOrDefaultSnapshotRoot_eq, lookup_insert_ne.
Qed.

(** ** The variables [Merge] depends on *)

(** X3.  The outcome of [Merge] depends on the environment through
    GHW_CHROOT, GHW_SNAPSHOT_PATH, GHW_SNAPSHOT_ROOT and
    GHW_SNAPSHOT_EXCLUSIVE only: two environments that agree on these four
    variables give the same outcome on every argument list. *)
Theorem Merge_reads_four_variables (e1 e2 : gmap string string)
    (opts : list (option Option)) :
  e1 !! envKeyChroot = e2 !! envKeyChroot →
  e1 !! envKeySnapshotPath = e2 !! envKeySnapshotPath →
  e1 !! envKeySnapshotRoot = e2 !! envKeySnapshotRoot →
  e1 !! envKeySnapshotExclusive = e2 !! envKeySnapshotExclusive →
  Merge e1 opts = Merge e2 opts.
Proof.
  intros Hc Hp Hr Hx. apply Merge_agree. intros merged _.
  apply merge_defaults_agree; intros _.
  - by rewrite !EnvOrDefaultChroot_eq, Hc.
  - rewrite !EnvOrDefaultSnapshotPath_eq, !EnvOrDefaultSnapshotRoot_eq,
      !EnvOrDefaultSnapshotExclusive_eq.
    by rewrite Hp, Hr, Hx.
Qed.

Lemma Merge_reads_four_variables_witness :
  Merge {[ envKeyChroot := "/host"; "HOME" := "/root" ]} [WithChroot "/a"]
  = Merge {[ envKeyChroot := "/host"; envKeySnapshotPreserve := "" ]}
      [WithChroot "/a"].
Proof.
  apply (Merge_reads_four_variables
           {[ envKeyChroot := "/host"; "HOME" := "/root" ]}
           {[ envKeyChroot := "/host"; envKeySnapshotPreserve := "" ]});
    reflexivity.
Defined.

(** X4.  When some argument has its chroot present and some argument has its
    snapshot present, [Merge] consults no environment variable at all: its
    outcome is the same in any two environments, and on a list without a nil
    pointer it is the last chroot and the last snapshot supplied. *)
Theorem Merge_hermetic_when_both_supplied (e1 e2 : gmap string string)
    (opts : list (option Option)) :
  some_arg_has Chroot opts → some_arg_has Snapshot opts →
  Merge e1 opts = Merge e2 opts
  ∧ ∀ args, opts = pointers_to args →
      ∃ dir s, last_present Chroot args = Some dir
               ∧ last_present Snapshot args = Some s
               ∧ Merge e1 opts
                 = Returns (Some {| Chroot := Some dir; Snapshot := Some s |}).
Proof.
  intros Hchroot Hsnapshot.
  assert (Hboth : ∀ merged, merge_range zero_Option opts = Returns merged →
            is_Some (Chroot merged) ∧ is_Some (Snapshot merged)).
  { intros merged Hrun. split.
    - apply (merge_range_field_present Chroot merge_body_Chroot _ _ _ Hrun).
      eauto.
    - apply (merge_range_field_present Snapshot merge_body_Snapshot _ _ _ Hrun).
      eauto. }
  split.
  - apply Merge_agree. intros merged [Hc Hs]%Hboth.
    apply merge_defaults_agree; intros Hnone.
    + rewrite Hnone in Hc. by destruct Hc.
    + rewrite Hnone in Hs. by destruct Hs.
  - intros args ->.
    destruct (Hboth _ (merge_range_pointers_to zero_Option args))
      as [[dir Hdir] [s Hs]].
    rewrite foldl_merge_body_Chroot in Hdir.
    rewrite foldl_merge_body_Snapshot in Hs.
    exists dir, s. split_and!; [done | done |].
    by rewrite Merge_pointers_to_fields, Hdir, Hs.
Qed.

Lemma Merge_hermetic_when_both_supplied_witness :
  Merge ∅
    [WithSnapshot {| Path := "/snap"; Root := None; Exclusive := true |};
     WithChroot "/a"]
  = Merge {[ envKeyChroot := "/host"; envKeySnapshotPath := "/other" ]}
      [WithSnapshot {| Path := "/snap"; Root := None; Exclusive := true |};
       WithChroot "/a"].
Proof.
  refine (proj1 (Merge_hermetic_when_both_supplied ∅
    {[ envKeyChroot := "/host"; envKeySnapshotPath := "/other" ]}
    [WithSnapshot {| Path := "/snap"; Root := None; Exclusive := true |};
     WithChroot "/a"] _ _)).
  - eexists. split; [apply list_elem_of_further, list_elem_of_here|].
    simpl. eauto.
  - eexists. split; [apply list_elem_of_here|]. simpl. eauto.
Defined.

(** ** Nested calls *)

(** The defaults commute with one iteration of the loop. *)
Lemma merge_defaults_merge_body environ merged opt :
  merge_body (merge_defaults environ merged) opt
  = merge_defaults environ (merge_body merged opt).
Proof. by destruct merged as [[?|] [?|]], opt as [[?|] [?|]]. Qed.

Lemma merge_body_zero_merge_defaults environ merged :
  merge_body zero_Option (merge_defaults environ merged)
  = merge_defaults environ merged.
Proof. by destruct merged as [[?|] [?|]]. Qed.

Lemma merge_defaults_idemp environ merged :
  merge_defaults environ (merge_defaults environ merged)
  = merge_defaults environ merged.
Proof. by destruct merged as [[?|] [?|]]. Qed.

Lemma merge_range_merge_defaults environ merged opts :
  merge_range (merge_defaults environ merged) opts
  = match merge_range merged opts with
    | Returns merged' => Returns (merge_defaults environ merged')
    | Panics p => Panics p
    end.
Proof.
  revert merged. induction opts as [|[opt|] opts IH]; intros merged; simpl.
  - done.
  - by rewrite merge_defaults_merge_body, IH.
  - done.
Qed.

(** X5.  A nested call can be flattened: when [Merge] returns [p] on a first
    list, passing [p] followed by further arguments gives, in the same
    environment, the outcome of [Merge] on the first list followed by those
    arguments (the same value, or the same panic when one of the further
    arguments is nil). *)
Theorem Merge_nested_is_flattened (environ : gmap string string)
    (opts1 opts2 : list (option Option)) (p : option Option) :
  Merge environ opts1 = Returns p →
  Merge environ (p :: opts2) = Merge environ (opts1 ++ opts2).
Proof.
  unfold Merge. rewrite merge_range_app.
  destruct (merge_range zero_Option opts1) as [merged|]; [|done].
  intros [= <-]. simpl.
  rewrite merge_body_zero_merge_defaults, merge_range_merge_defaults.
  destruct (merge_range merged opts2) as [merged'|]; [|done].
  by rewrite merge_defaults_idemp.
Qed.

Lemma Merge_nested_is_flattened_witness :
  Merge {[ envKeySnapshotPath := "/env.tgz" ]}
    [Some {| Chroot := Some "/a";
             Snapshot := Some {| Path := "/env.tgz"; Root := Some "";
                                 Exclusive := false |} |};
     WithChroot "/b"]
  = Merge {[ envKeySnapshotPath := "/env.tgz" ]}
      ([WithChroot "/a"] ++ [WithChroot "/b"]).
Proof.
  apply (Merge_nested_is_flattened {[ envKeySnapshotPath := "/env.tgz" ]}
           [WithChroot "/a"] [WithChroot "/b"]).
  reflexivity.
Defined.

(** X6.  A value returned by [Merge] overrides everything before it: placed
    last after any arguments without a nil pointer, in any environment, it is
    what [Merge] returns. *)
Theorem Merge_merged_last_absorbs (environ environ' : gmap string string)
    (opts : list (option Option)) (p : option Option) (args : list Option) :
  Merge environ opts = Returns p →
  Merge environ' (pointers_to args ++ [p]) = Returns p.
Proof.
  intros (merged & -> & [dir Hdir] & [s Hs])%Merge_returns_top_level.
  change [Some merged] with (pointers_to [merged]).
  unfold pointers_to. rewrite <- fmap_app. fold (pointers_to (args ++ [merged])).
  rewrite Merge_pointers_to_fields, !last_present_snoc, Hdir, Hs. simpl.
  do 2 f_equal. apply Option_ext; simpl; congruence.
Qed.

Lemma Merge_merged_last_absorbs_witness :
  Merge {[ envKeyChroot := "/host" ]}
    (pointers_to
       [ {| Chroot := Some "/b";
            Snapshot := Some {| Path := "/snap"; Root := None;
                                Exclusive := true |} |} ]
     ++ [Some {| Chroot := Some "/a";
                 Snapshot := Some {| Path := ""; Root := Some "";
                                     Exclusive := false |} |}])
  = Returns (Some {| Chroot := Some "/a";
                     Snapshot := Some {| Path := ""; Root := Some "";
                                         Exclusive := false |} |}).
Proof.
  apply (Merge_merged_last_absorbs ∅ {[ envKeyChroot := "/host" ]}
           [WithChroot "/a"]).
  reflexivity.
Defined.

(** ** Reordering and dropping arguments *)

Lemma merge_body_comm merged a b :
  Chroot a = None ∨ Chroot b = None →
  Snapshot a = None ∨ Snapshot b = None →
  merge_body (merge_body merged a) b = merge_body (merge_body merged b) a.
Proof.
  destruct a as [[?|] [?|]], b as [[?|] [?|]]; simpl;
    intros [[=]|[=]] [[=]|[=]]; done.
Qed.

(** X7.  Two neighbouring arguments that set no field in common can be
    swapped: when at most one of them has a chroot and at most one has a
    snapshot, [Merge] gives the same outcome in either order, whatever stands
    before and after them. *)
Theorem Merge_disjoint_arguments_commute (environ : gmap string string)
    (before after : list (option Option)) (a b : Option) :
  Chroot a = None ∨ Chroot b = None →
  Snapshot a = None ∨ Snapshot b = None →
  Merge environ (before ++ Some a :: Some b :: after)
  = Merge environ (before ++ Some b :: Some a :: after).
Proof.
  intros Hc Hs. unfold Merge. rewrite !merge_range_app.
  destruct (merge_range zero_Option before) as [merged|]; [|done].
  simpl. by rewrite (merge_body_comm merged a b Hc Hs).
Qed.

Lemma Merge_disjoint_arguments_commute_witness :
  Merge ∅
    ([] ++ [WithChroot "/a";
            WithSnapshot {| Path := "/snap"; Root := None; Exclusive := false |}])
  = Merge ∅
      ([] ++ [WithSnapshot {| Path := "/snap"; Root := None; Exclusive := false |};
              WithChroot "/a"]).
Proof.
  apply (Merge_disjoint_arguments_commute ∅ [] []
           {| Chroot := Some "/a"; Snapshot := None |}
           {| Chroot := None;
              Snapshot := Some {| Path := "/snap"; Root := None;
                                  Exclusive := false |} |}).
  - right. reflexivity.
  - left. reflexivity.
Defined.

(** Two states of [merged] that differ only in fields a later argument sets
    leave the loop alike. *)
Lemma merge_range_overwrites merged1 merged2 opts :
  Chroot merged1 = Chroot merged2 ∨ some_arg_has Chroot opts →
  Snapshot merged1 = Snapshot merged2 ∨ some_arg_has Snapshot opts →
  merge_range merged1 opts = merge_range merged2 opts.
Proof.
  assert (Hstep : ∀ (A : Type) (f : Option → option A),
    (∀ merged opt, f (merge_body merged opt)
       = match f opt with Some x => Some x | None => f merged end) →
    ∀ m1 m2 opt rest,
      f m1 = f m2 ∨ some_arg_has f (Some opt :: rest) →
      f (merge_body m1 opt) = f (merge_body m2 opt) ∨ some_arg_has f rest).
  { intros A f Hf m1 m2 opt rest [Heq|(opt' & Hin & Hsome)].
    - left. by rewrite !Hf, Heq.
    - apply elem_of_cons in Hin as [[= ->]|Hin].
      + left. rewrite !Hf. by destruct Hsome as [x ->].
      + right. by exists opt'. }
  revert merged1 merged2.
  induction opts as [|[opt|] opts IH]; intros merged1 merged2 Hc Hs; simpl.
  - f_equal. apply Option_ext.
    + destruct Hc as [|(? & ?%elem_of_nil & _)]; done.
    + destruct Hs as [|(? & ?%elem_of_nil & _)]; done.
  - apply IH.
    + by apply (Hstep _ Chroot merge_body_Chroot).
    + by apply (Hstep _ Snapshot merge_body_Snapshot).
  - done.
Qed.

(** X8.  An argument is dead when every field it sets is set again by a
    later argument: removing it from the list does not change the outcome of
    [Merge].  An argument with both fields nil is the limit case and can be
    dropped anywhere. *)
Theorem Merge_shadowed_argument_is_dead (environ : gmap string string)
    (before after : list (option Option)) (a : Option) :
  Chroot a = None ∨ some_arg_has Chroot after →
  Snapshot a = None ∨ some_arg_has Snapshot after →
  Merge environ (before ++ Some a :: after) = Merge environ (before ++ after).
Proof.
  intros Hc Hs. unfold Merge. rewrite !merge_range_app.
  destruct (merge_range zero_Option before) as [merged|]; [|done].
  simpl. rewrite (merge_range_overwrites (merge_body merged a) merged after).
  - done.
  - destruct Hc as [Hnone|Hlater]; [left | by right].
    by rewrite merge_body_Chroot, Hnone.
  - destruct Hs as [Hnone|Hlater]; [left | by right].
    by rewrite merge_body_Snapshot, Hnone.
Qed.

Lemma Merge_shadowed_argument_is_dead_witness :
  Merge ∅ ([WithSnapshot {| Path := "/snap"; Root := None; Exclusive := true |}]
           ++ WithChroot "/a" :: [WithChroot "/b"])
  = Merge ∅ ([WithSnapshot {| Path := "/snap"; Root := None; Exclusive := true |}]
             ++ [WithChroot "/b"]).
Proof.
  apply (Merge_shadowed_argument_is_dead ∅
           [WithSnapshot {| Path := "/snap"; Root := None; Exclusive := true |}]
           [WithChroot "/b"] {| Chroot := Some "/a"; Snapshot := None |}).
  - right. eexists. split; [apply list_elem_of_here|]. simpl. eauto.
  - left. reflexivity.
Defined.

(** ** Rebuilding a merged value *)

(** X9.  Whatever [Merge] returns can be rebuilt from the two constructors:
    it has a chroot [dir] and a snapshot [s] such that merging
    [WithChroot dir] and [WithSnapshot s], in either order and in any
    environment, returns the same value again. *)
Theorem Merge_result_rebuilt_from_constructors (environ : gmap string string)
    (opts : list (option Option)) (p : option Option) :
  Merge environ opts = Returns p →
  ∃ (dir : string) (s : SnapshotOptions),
    p = Some {| Chroot := Some dir; Snapshot := Some s |}
    ∧ ∀ environ' : gmap string string,
        Merge environ' [WithChroot dir; WithSnapshot s] = Returns p
        ∧ Merge environ' [WithSnapshot s; WithChroot dir] = Returns p.
Proof.
  intros (merged & -> & [dir Hdir] & [s Hs])%Merge_returns_top_level.
  exists dir, s.
  assert (Hmerged : merged = {| Chroot := Some dir; Snapshot := Some s |}).
  { apply Option_ext; simpl; congruence. }
  by rewrite Hmerged.
Qed.

Lemma Merge_result_rebuilt_from_constructors_witness :
  ∃ (dir : string) (s : SnapshotOptions),
    Some {| Chroot := Some "/host";
            Snapshot := Some {| Path := "/snap"; Root := None;
                                Exclusive := false |} |}
    = Some {| Chroot := Some dir; Snapshot := Some s |}
    ∧ ∀ environ' : gmap string string,
        Merge environ' [WithChroot dir; WithSnapshot s]
        = Returns (Some {| Chroot := Some "/host";
                           Snapshot := Some {| Path := "/snap"; Root := None;
                                               Exclusive := false |} |})
        ∧ Merge environ' [WithSnapshot s; WithChroot dir]
          = Returns (Some {| Chroot := Some "/host";
                             Snapshot := Some {| Path := "/snap"; Root := None;
                                                 Exclusive := false |} |}).
Proof.
  apply (Merge_result_rebuilt_from_constructors {[ envKeyChroot := "/host" ]}
           [WithSnapshot {| Path := "/snap"; Root := None; Exclusive := false |}]).
  reflexivity.
Defined.
